(** * mgiContainer.h: the sequential allocation container [CSeqAllocCont]

    A shallow embedding of [mgi::CSeqAllocCont<nBlockSize>] and the
    properties of its operations.  Addresses are integers; the objects of
    type [NODE_t] that are alive are kept in a finite map from the address
    of a node to the value of its [next] field, the null pointer being [0].
    The field [data] is the first member of [NODE_t], so that the address
    of a node is also the address of [data[0]], and
    [&p->data[nBlockSize]] is [p + nBlockSize].

    [Allocate<T>] is followed up to the address that it hands to the
    placement [new].  The constructor of [T] that runs there is code of
    the caller and its stores are not part of the model: what is stated
    of the links after a call is stated of the links as the members of
    the container leave them, and of the links in the code when the
    object lies in the storage of a block.

    Reading or writing a link ([pLast->next], [pHead->next]) and
    [delete] have no defined behaviour when the pointer is null or
    designates no live node; [&pLast->data[nBlockSize]] is address
    arithmetic and needs no live node. *)

From Stdlib Require Import ZArith Lia List Bool.
From stdpp Require Import base option list gmap fin_maps.

Open Scope Z_scope.

(** ** Types of the template arguments *)

(** What [Allocate<T>] uses of its type argument. *)
Record ctype : Type := CType { sizeof : Z; alignof : Z }.

(** ** The state *)

(** [heap]: the live [NODE_t] objects, address to [next] field.
    [pHead], [pLast], [pCurrent]: the three data members.
    [source]: the memory source behind [new NODE_t], as the addresses that
    the next calls will return; an empty list is a source that cannot
    supply a block.  [acquired] counts the blocks obtained from the source
    and [released] lists the blocks given back by [delete], latest first. *)
Record state : Type := State {
  heap : gmap Z Z;
  pHead : Z;
  pLast : Z;
  pCurrent : Z;
  source : list Z;
  acquired : nat;
  released : list Z
}.

(** The two ways [Allocate] can fail (source lines 83 and 93), and the
    C++ exception each one raises: [new] reports a failed allocation with
    [std::bad_alloc], and line 93 is [throw std::bad_alloc()]. *)
Inductive failure : Type := OutOfMemory | AllocationImpossible.

Inductive cxx_exception : Type := std_bad_alloc.

Definition exception_of (f : failure) : cxx_exception :=
  match f with
  | OutOfMemory => std_bad_alloc
  | AllocationImpossible => std_bad_alloc
  end.

(** The outcome of a member function: it returns, it throws, or it has no
    defined behaviour (it reads through a pointer that is null or that
    designates no live node). *)
Inductive result (A : Type) : Type :=
| Returns (a : A) (st : state)
| Throws (f : failure) (st : state)
| Undefined.

Arguments Returns {A} a st.
Arguments Throws {A} f st.
Arguments Undefined {A}.

Definition bind {A B : Type} (m : result A) (k : A -> state -> result B) : result B :=
  match m with
  | Returns a st => k a st
  | Throws f st => Throws f st
  | Undefined => Undefined
  end.

Definition set_cursor (c : Z) (st : state) : state :=
  State (heap st) (pHead st) (pLast st) c (source st) (acquired st) (released st).

(** [pLast = p; pCurrent = (uintptr_t)pLast;] *)
Definition set_tail (p : Z) (st : state) : state :=
  State (heap st) (pHead st) p p (source st) (acquired st) (released st).

(** [q->next = v] on a live node [q]. *)
Definition store_next (q v : Z) (st : state) : state :=
  State (<[q := v]> (heap st)) (pHead st) (pLast st) (pCurrent st)
        (source st) (acquired st) (released st).

(** [new NODE_t{ { 0 }, nullptr }] *)
Definition operator_new (st : state) : result Z :=
  match source st with
  | [] => Throws OutOfMemory st
  | b :: rest =>
      Returns b (State (<[b := 0]> (heap st)) (pHead st) (pLast st) (pCurrent st)
                       rest (S (acquired st)) (released st))
  end.

(** [delete p] *)
Definition operator_delete (p : Z) (st : state) : result unit :=
  if p =? 0 then Returns tt st
  else match heap st !! p with
       | None => Undefined
       | Some _ =>
           Returns tt (State (delete p (heap st)) (pHead st) (pLast st) (pCurrent st)
                             (source st) (acquired st) (p :: released st))
       end.

Section Container.

(** The template argument, and the width of [uintptr_t]. *)
Variable nBlockSize : Z.
Variable ptr_bits : Z.

(** The two [static_assert]s. *)
Definition valid_config : bool := 128 <? nBlockSize.
Definition valid_type (T : ctype) : bool := sizeof T <=? nBlockSize.

(** Arithmetic on [uintptr_t]. *)
Definition wrap (x : Z) : Z := x mod 2 ^ ptr_bits.

(** [(uintptr_t)&p->data[nBlockSize]] *)
Definition block_end (p : Z) : Z := wrap (p + nBlockSize).

(** Lines 76-80 and 87-90: the cursor after
    [if ((pCurrent & __alignof(T)) != 0) { pCurrent &= __alignof(T); pCurrent += __alignof(T); }] *)
Definition align_cursor (T : ctype) (cur : Z) : Z :=
  if Z.land cur (alignof T) =? 0 then cur
  else wrap (Z.land cur (alignof T) + alignof T).

(** [pCurrent + sizeof(T) > (uintptr_t)&pLast->data[nBlockSize]] *)
Definition exceeds (T : ctype) (st : state) : bool :=
  block_end (pLast st) <? wrap (pCurrent st + sizeof T).

(** Lines 81-86.  The comparison of line 81 reads no memory; the link
    of the tail is read at line 83. *)
Definition next_block (T : ctype) (st : state) : result unit :=
  if exceeds T st then
    match heap st !! pLast st with
    | None => Undefined
    | Some nxt =>
        if nxt =? 0 then
          bind (operator_new st)
               (fun b st1 => Returns tt (set_tail b (store_next (pLast st1) b st1)))
        else Returns tt (set_tail nxt st)
    end
  else Returns tt st.

(** Lines 87-94. *)
Definition realign (T : ctype) (st : state) : result unit :=
  if Z.land (pCurrent st) (alignof T) =? 0 then Returns tt st
  else
    let st1 := set_cursor (align_cursor T (pCurrent st)) st in
    if exceeds T st1 then Throws AllocationImpossible st1
    else Returns tt st1.

(** Lines 76-94: the search of the place, before anything is built. *)
Definition locate (T : ctype) (st : state) : result unit :=
  bind (next_block T (set_cursor (align_cursor T (pCurrent st)) st))
       (fun _ st2 => realign T st2).

(** Lines 95-97: the address handed to placement [new], which is the
    value returned, and the cursor behind the object.  The stores of the
    constructor of [T] at this address are not modelled. *)
Definition place (T : ctype) (st : state) : result Z :=
  Returns (pCurrent st) (set_cursor (wrap (pCurrent st + sizeof T)) st).

Definition Allocate (T : ctype) (st : state) : result Z :=
  bind (next_block T (set_cursor (align_cursor T (pCurrent st)) st))
       (fun _ st2 => bind (realign T st2) (fun _ st3 => place T st3)).

(** A sequence of [Allocate] calls, stopped by the first one that does
    not return; the result lists the addresses returned. *)
Fixpoint run (ops : list ctype) (st : state) : result (list Z) :=
  match ops with
  | [] => Returns [] st
  | T :: ops' =>
      bind (Allocate T st)
           (fun r st1 => bind (run ops' st1) (fun rs st2 => Returns (r :: rs) st2))
  end.

(** The default constructor: [pHead(new NODE_t{...}), pLast(pHead),
    pCurrent((uintptr_t)pHead)]. *)
Definition no_object : state := State ∅ 0 0 0 [] 0 [].

Definition Construct (src : list Z) : result unit :=
  match src with
  | [] => Throws OutOfMemory no_object
  | b :: rest => Returns tt (State (<[b := 0]> ∅) b b b rest 1 [])
  end.

Definition Clean (st : state) : result unit :=
  Returns tt (State (heap st) (pHead st) (pHead st) (pHead st)
                    (source st) (acquired st) (released st)).

(** The loop of [Reset], lines 116-120, on the local value [p] of [pLast].
    Every iteration deletes a live node, so that [size h] iterations are
    enough on the heap [h]: see [Reset_loop_fuel]. *)
Fixpoint Reset_loop (fuel : nat) (h : gmap Z Z) (p : Z) (rel : list Z)
  : option (gmap Z Z * list Z) :=
  if p =? 0 then Some (h, rel)
  else match h !! p with
       | None => None
       | Some nxt =>
           match fuel with
           | O => None
           | S f => Reset_loop f (delete p h) nxt (p :: rel)
           end
       end.

Definition Reset (st : state) : result unit :=
  match heap st !! pHead st with
  | None => Undefined
  | Some nxt =>
      let h1 := <[pHead st := 0]> (heap st) in
      match Reset_loop (size h1) h1 nxt (released st) with
      | None => Undefined
      | Some (h2, rel) =>
          Returns tt (State h2 (pHead st) 0 (pCurrent st) (source st) (acquired st) rel)
      end
  end.

(** [~CSeqAllocCont() { Reset(); delete pHead; }] *)
Definition Destroy (st : state) : result unit :=
  bind (Reset st) (fun _ st1 => operator_delete (pHead st1) st1).

(** ** The chain *)

(** The nodes met from [p] by following [next] up to the null pointer;
    [None] when a link leaves the live nodes or comes back to a node
    already met. *)
Fixpoint chain_from (fuel : nat) (h : gmap Z Z) (p : Z) : option (list Z) :=
  if p =? 0 then Some []
  else match h !! p with
       | None => None
       | Some nxt =>
           match fuel with
           | O => None
           | S f => option_map (cons p) (chain_from f (delete p h) nxt)
           end
       end.

Definition chain (st : state) : option (list Z) :=
  chain_from (size (heap st)) (heap st) (pHead st).

(** [lseg h p l]: following [next] from [p] in [h] meets exactly the
    nodes [l], in this order, and then the null pointer.  A node met is
    taken out of the heap for the rest of the walk, as in [chain_from]. *)
Inductive lseg : gmap Z Z -> Z -> list Z -> Prop :=
| lseg_null (h : gmap Z Z) : lseg h 0 []
| lseg_node (h : gmap Z Z) (p nxt : Z) (l : list Z) :
    p <> 0 -> h !! p = Some nxt -> lseg (delete p h) nxt l -> lseg h p (p :: l).

(** [pLast] is one of the nodes of the chain. *)
Definition tail_linked (st : state) : bool :=
  match chain st with
  | Some l => existsb (Z.eqb (pLast st)) l
  | None => false
  end.

(** What a memory source may answer on the heap [h]: addresses that are
    not null, that are not those of live nodes, and that are all
    different. *)
Fixpoint fresh_list (h : gmap Z Z) (bs : list Z) : bool :=
  match bs with
  | [] => true
  | b :: rest =>
      negb (b =? 0) && negb (bool_decide (is_Some (h !! b)))
      && negb (existsb (Z.eqb b) rest) && fresh_list h rest
  end.

Definition source_fresh (st : state) : bool := fresh_list (heap st) (source st).

(** The state left by the constructor or by [Clean]: nothing allocated. *)
Definition empty_arena (st : state) : bool :=
  (pLast st =? pHead st) && (pCurrent st =? pHead st).

(** The heap only grows, and a link that is not null is never changed. *)
Definition heap_extends (h h' : gmap Z Z) : Prop :=
  forall p nxt, h !! p = Some nxt ->
    is_Some (h' !! p) /\ (nxt <> 0 -> h' !! p = Some nxt).

(** The heap without the nodes [l]. *)
Fixpoint delete_all (l : list Z) (h : gmap Z Z) : gmap Z Z :=
  match l with
  | [] => h
  | p :: t => delete_all t (delete p h)
  end.

(** The state in which a call ends, when it ends by a return or a throw. *)
Definition state_after {A : Type} (m : result A) : option state :=
  match m with
  | Returns _ st => Some st
  | Throws _ st => Some st
  | Undefined => None
  end.

Definition char_t := CType 1 1.
Definition int_t := CType 4 4.

(** The value returned, the failure behind a throw, and the exception
    that the caller of a throwing call can catch. *)
Definition value_of {A : Type} (m : result A) : option A :=
  match m with
  | Returns a _ => Some a
  | _ => None
  end.

Definition failure_of {A : Type} (m : result A) : option failure :=
  match m with
  | Throws f _ => Some f
  | _ => None
  end.

Definition thrown {A : Type} (m : result A) : option cxx_exception :=
  option_map exception_of (failure_of m).

(** ** Vocabulary of the properties *)

(** An object type of C++: a size that is positive and a multiple of the
    alignment, an alignment that is a power of two. *)
Definition object_type (T : ctype) : bool :=
  (0 <? sizeof T) && (0 <? alignof T)
  && (Z.land (alignof T) (alignof T - 1) =? 0)
  && (sizeof T mod alignof T =? 0).

Definition aligned (T : ctype) (r : Z) : bool := r mod alignof T =? 0.

(** The bytes [[r, r + sizeof T)] lie in the storage [data] of the block
    at [b]. *)
Definition in_block (b : Z) (T : ctype) (r : Z) : bool :=
  (b <=? r) && (r + sizeof T <=? b + nBlockSize).

Definition within_chain (st : state) (T : ctype) (r : Z) : bool :=
  match chain st with
  | Some l => existsb (fun b => in_block b T r) l
  | None => false
  end.

(** The byte ranges of two objects have a byte in common. *)
Definition overlap (T1 : ctype) (r1 : Z) (T2 : ctype) (r2 : Z) : bool :=
  (r1 <? r2 + sizeof T2) && (r2 <? r1 + sizeof T1).

(** The invariant of a container at rest: the tail is a node of the
    chain, and the cursor is between the start of the storage of the
    tail and its end, the end included. *)
Definition ready (st : state) : bool :=
  tail_linked st
  && (pLast st <=? pCurrent st) && (pCurrent st <=? pLast st + nBlockSize).

(** The alignment correction in the words of the specification, to be
    compared with [align_cursor]: the next address, from [p] on, that
    satisfies the alignment requirement of [T]. *)
Definition next_aligned (T : ctype) (p : Z) : Z :=
  (p + alignof T - 1) / alignof T * alignof T.

(** ** Sequences of calls *)

(** A call of a member function by the owner of the container. *)
Inductive call : Type :=
| CallAllocate (T : ctype)
| CallClean
| CallReset.

Definition do_call (c : call) (st : state) : result unit :=
  match c with
  | CallAllocate T => bind (Allocate T st) (fun _ s => Returns tt s)
  | CallClean => Clean st
  | CallReset => Reset st
  end.

(** The calls of an owner who catches what a call throws and goes on
    with the container as the call left it; [None] as soon as a call has
    no defined behaviour. *)
Fixpoint calls (cs : list call) (st : state) : option state :=
  match cs with
  | [] => Some st
  | c :: cs' =>
      match state_after (do_call c st) with
      | Some s => calls cs' s
      | None => None
      end
  end.


(** The container owns its heap: the chain from the head is well formed
    and holds every live node, the tail is a node of the chain or null,
    and every block acquired is live or has been released. *)
Definition owned (st : state) : Prop :=
  exists l, lseg (heap st) (pHead st) l
    /\ pHead st <> 0
    /\ length l = size (heap st)
    /\ (pLast st ∈ l \/ pLast st = 0)
    /\ acquired st = (size (heap st) + length (released st))%nat.

(** The address that the memory source answers next is not null and is
    not the address of a live node. *)
Definition source_ready (st : state) : bool :=
  match source st with
  | [] => true
  | b :: _ => negb (b =? 0) && negb (bool_decide (is_Some (heap st !! b)))
  end.

(** A call of [Allocate<T>] from [st] is sound when the block it takes
    from the memory source, if it takes one, is a block that the source
    may answer, and when the object it returns lies in the storage of a
    block of the chain, so that nothing is built over a link. *)
Definition sound_call (T : ctype) (st : state) : bool :=
  match Allocate T st with
  | Returns r st1 =>
      ((acquired st1 =? acquired st)%nat || source_ready st)
      && within_chain st1 T r
  | Throws _ st1 => (acquired st1 =? acquired st)%nat || source_ready st
  | Undefined => true
  end.

(** Every [Allocate] of the calls [cs] from [st] is sound. *)
Fixpoint sound_calls (cs : list call) (st : state) : bool :=
  match cs with
  | [] => true
  | c :: cs' =>
      match c with
      | CallAllocate T => sound_call T st
      | _ => true
      end
      && match state_after (do_call c st) with
         | Some s => sound_calls cs' s
         | None => true
         end
  end.

(** Every object of the calls [ops] from [st] is returned and lies in
    the storage of a block of the chain. *)
Fixpoint run_in_blocks (ops : list ctype) (st : state) : bool :=
  match ops with
  | [] => true
  | T :: ops' =>
      match Allocate T st with
      | Returns r st1 => within_chain st1 T r && run_in_blocks ops' st1
      | _ => false
      end
  end.

(** The layout of [NODE_t]: the pointer [next] lies behind [data] at the
    next multiple of the size of a pointer. *)
Definition ptr_bytes : Z := ptr_bits / 8.

Definition link_offset : Z :=
  (nBlockSize + ptr_bytes - 1) / ptr_bytes * ptr_bytes.

(** The bytes of an object of type [T] at [r] include the bytes of the
    link of the node at [q]. *)
Definition covers_link (T : ctype) (r q : Z) : bool :=
  (r <=? q + link_offset) && (q + link_offset + ptr_bytes <=? r + sizeof T).

(** ** Facts on chains *)

Lemma lseg_null_inv (h : gmap Z Z) (l : list Z) : lseg h 0 l -> l = [].
Proof. inversion 1; congruence. Qed.

Lemma lseg_node_inv (h : gmap Z Z) (p : Z) (l : list Z) :
  p <> 0 -> lseg h p l ->
  exists nxt t, l = p :: t /\ h !! p = Some nxt /\ lseg (delete p h) nxt t.
Proof. intros Hp H. inversion H; subst; [congruence | eauto]. Qed.

Lemma lseg_length (h : gmap Z Z) (p : Z) (l : list Z) :
  lseg h p l -> (length l <= size h)%nat.
Proof.
  induction 1 as [h | h p nxt l Hp Hl _ IH]; simpl; [lia |].
  rewrite map_size_delete, Hl in IH. simpl in IH.
  assert (size h <> 0%nat).
  { intros E. apply map_size_empty_inv in E. subst h. by rewrite lookup_empty in Hl. }
  lia.
Qed.

Lemma chain_from_sound (fuel : nat) (h : gmap Z Z) (p : Z) (l : list Z) :
  chain_from fuel h p = Some l -> lseg h p l.
Proof.
  revert h p l. induction fuel as [| f IH]; intros h p l; simpl.
  - destruct (Z.eqb_spec p 0) as [-> | Hp].
    + intros [= <-]. constructor.
    + destruct (h !! p); discriminate.
  - destruct (Z.eqb_spec p 0) as [-> | Hp].
    + intros [= <-]. constructor.
    + destruct (h !! p) as [nxt |] eqn:Hl; [| discriminate].
      destruct (chain_from f (delete p h) nxt) as [t |] eqn:Ht; simpl; [| discriminate].
      intros [= <-]. econstructor; eauto.
Qed.

Lemma chain_from_complete (h : gmap Z Z) (p : Z) (l : list Z) :
  lseg h p l -> forall fuel, (size h <= fuel)%nat -> chain_from fuel h p = Some l.
Proof.
  induction 1 as [h | h p nxt l Hp Hl _ IH]; intros fuel Hf.
  - by destruct fuel.
  - assert (Hs : size (delete p h) = pred (size h)) by (by rewrite map_size_delete, Hl).
    assert (size h <> 0%nat).
    { intros E. apply map_size_empty_inv in E. subst h. by rewrite lookup_empty in Hl. }
    destruct fuel as [| f]; [lia |]. simpl.
    destruct (Z.eqb_spec p 0); [congruence |].
    rewrite Hl, IH by lia. done.
Qed.

Lemma chain_lseg (st : state) (l : list Z) :
  chain st = Some l <-> lseg (heap st) (pHead st) l.
Proof.
  split; [apply chain_from_sound |].
  intros H. by apply chain_from_complete.
Qed.

(** A node of the chain is live, and its link is null or the next node. *)
Lemma lseg_elem (h : gmap Z Z) (p : Z) (l : list Z) (q : Z) :
  lseg h p l -> q ∈ l ->
  q <> 0 /\ exists nxt, h !! q = Some nxt /\ (nxt = 0 \/ nxt ∈ l).
Proof.
  induction 1 as [h | h p nxt l Hp Hl Hs IH]; intros Hq.
  - by apply elem_of_nil in Hq.
  - apply elem_of_cons in Hq as [-> | Hq].
    + split; [done |]. exists nxt. split; [done |].
      destruct (decide (nxt = 0)) as [| Hn]; [by left | right].
      destruct (lseg_node_inv _ _ _ Hn Hs) as (? & t & -> & _).
      apply list_elem_of_further, list_elem_of_here.
    + destruct (IH Hq) as (Hq0 & n & Hn & Hor). split; [done |].
      apply lookup_delete_Some in Hn as [_ Hn].
      exists n. split; [done |].
      destruct Hor; [by left | right; by apply list_elem_of_further].
Qed.

(** Linking a new node behind the node of the chain whose link is null. *)
Lemma lseg_append (h : gmap Z Z) (p : Z) (l : list Z) (q b : Z) :
  lseg h p l -> q ∈ l -> h !! q = Some 0 -> h !! b = None -> b <> 0 ->
  lseg (<[q := b]> (<[b := 0]> h)) p (l ++ [b]).
Proof.
  induction 1 as [h | h p nxt l Hp Hl Hs IH]; intros Hq Hq0 Hb Hb0.
  - by apply elem_of_nil in Hq.
  - assert (Hpb : p <> b) by congruence.
    destruct (decide (q = p)) as [-> | Hqp].
    + assert (nxt = 0) by congruence. subst nxt.
      apply lseg_null_inv in Hs. subst l. simpl.
      apply lseg_node with (nxt := b); [done | by rewrite lookup_insert_eq |].
      rewrite delete_insert_eq.
      apply lseg_node with (nxt := 0); [done | |].
      * rewrite lookup_delete_ne by done. by rewrite lookup_insert_eq.
      * constructor.
    + apply elem_of_cons in Hq as [? | Hq]; [done |]. simpl.
      apply lseg_node with (nxt := nxt); [done | |].
      * rewrite !lookup_insert_ne by congruence. done.
      * rewrite !delete_insert_ne by congruence.
        apply IH; [done | | |done].
        -- by rewrite lookup_delete_ne.
        -- rewrite lookup_delete_ne; done.
Qed.

(** ** The loop of [Reset] *)

Lemma size_live (h : gmap Z Z) (p nxt : Z) :
  h !! p = Some nxt -> size h = S (size (delete p h)).
Proof.
  intros Hl. rewrite map_size_delete, Hl. simpl.
  assert (size h <> 0%nat); [| lia].
  intros E. apply map_size_empty_inv in E. subst h. by rewrite lookup_empty in Hl.
Qed.

(** The bound on the iterations is never what stops the loop. *)
Lemma Reset_loop_fuel (f1 f2 : nat) (h : gmap Z Z) (p : Z) (rel : list Z) :
  (size h <= f1)%nat -> (size h <= f2)%nat ->
  Reset_loop f1 h p rel = Reset_loop f2 h p rel.
Proof.
  revert f2 h p rel. induction f1 as [| f1 IH]; intros f2 h p rel H1 H2.
  - assert (h = ∅) by (apply map_size_empty_inv; lia). subst h.
    destruct f2; simpl; destruct (p =? 0); try done; by rewrite lookup_empty.
  - destruct f2 as [| f2].
    + assert (h = ∅) by (apply map_size_empty_inv; lia). subst h.
      simpl; destruct (p =? 0); try done; by rewrite lookup_empty.
    + simpl. destruct (p =? 0); [done |].
      destruct (h !! p) as [nxt |] eqn:Hl; [| done].
      pose proof (size_live _ _ _ Hl). apply IH; lia.
Qed.

Lemma Reset_loop_lseg (h0 : gmap Z Z) (n : Z) (t : list Z) :
  lseg h0 n t ->
  forall (k v : Z) (fuel : nat) (rel : list Z),
    h0 !! k = None -> (length t <= fuel)%nat ->
    Reset_loop fuel (<[k := v]> h0) n rel
    = Some (<[k := v]> (delete_all t h0), rev t ++ rel).
Proof.
  induction 1 as [h | h p nxt l Hp Hl _ IH]; intros k v fuel rel Hk Hf.
  - by destruct fuel.
  - simpl in Hf. destruct fuel as [| f]; [lia |]. simpl.
    destruct (Z.eqb_spec p 0); [congruence |].
    assert (k <> p) by congruence.
    rewrite lookup_insert_ne, Hl by done.
    rewrite delete_insert_ne by congruence.
    rewrite IH; [| by rewrite lookup_delete_ne | lia].
    by rewrite <- app_assoc.
Qed.

Lemma delete_all_lookup_None (l : list Z) (h : gmap Z Z) (k : Z) :
  h !! k = None -> delete_all l h !! k = None.
Proof.
  revert h. induction l as [| p t IH]; intros h Hk; simpl; [done |].
  apply IH. rewrite lookup_delete_None. by right.
Qed.

(** What [Reset] does on a container whose chain is well formed. *)
Lemma Reset_spec (st : state) (t : list Z) :
  chain st = Some (pHead st :: t) ->
  Reset st = Returns tt
    (State (<[pHead st := 0]> (delete_all (pHead st :: t) (heap st)))
           (pHead st) 0 (pCurrent st) (source st) (acquired st)
           (rev t ++ released st)).
Proof.
  intros Hc. apply chain_lseg in Hc.
  pose proof (lseg_length _ _ _ Hc) as Hlen. simpl in Hlen.
  inversion Hc as [| h p nxt l Hp Hl Hs]; subst.
  unfold Reset. rewrite Hl. simpl.
  rewrite <- (insert_delete_eq (heap st)).
  rewrite (Reset_loop_lseg _ _ _ Hs); [done | by rewrite lookup_delete_eq |].
  rewrite insert_delete_eq, map_size_insert_Some by eauto. lia.
Qed.

Lemma Reset_again (h : gmap Z Z) (hd cur : Z) (src : list Z) (acq : nat) (rel : list Z) :
  let st1 := State (<[hd := 0]> h) hd 0 cur src acq rel in
  Reset st1 = Returns tt st1.
Proof.
  intros st1. unfold Reset, st1. simpl.
  rewrite lookup_insert_eq, insert_insert_eq.
  by destruct (size (<[hd := 0]> h)).
Qed.

(** X1.  After [Reset] the chain is the head alone, the blocks behind it have
    been released in the order of the chain, the tail is null and the
    cursor is the one of before the call. *)
Lemma Reset_effect (st : state) (t : list Z) :
  chain st = Some (pHead st :: t) ->
  exists st1, Reset st = Returns tt st1
    /\ chain st1 = Some [pHead st]
    /\ released st1 = rev t ++ released st
    /\ pHead st1 = pHead st /\ pLast st1 = 0 /\ pCurrent st1 = pCurrent st.
Proof.
  intros Hc. rewrite (Reset_spec st t Hc).
  apply chain_lseg in Hc. inversion Hc as [| h p nxt l Hp Hl Hs]; subst.
  eexists. split; [reflexivity |]. split; [| done].
  apply chain_lseg. simpl.
  apply lseg_node with (nxt := 0); [done | by rewrite lookup_insert_eq | constructor].
Qed.

(** ** The alignment step *)

Lemma land_pow2 (p k : Z) :
  0 <= k -> Z.land p (2 ^ k) = if Z.testbit p k then 2 ^ k else 0.
Proof.
  intros Hk. apply Z.bits_inj'. intros n Hn.
  rewrite Z.land_spec, Z.pow2_bits_eqb by done.
  destruct (Z.eqb_spec k n) as [-> | Hkn].
  - destruct (Z.testbit p n) eqn:Hb; simpl.
    + by rewrite Z.pow2_bits_true.
    + by rewrite Z.bits_0.
  - rewrite andb_false_r. destruct (Z.testbit p k).
    + by rewrite Z.pow2_bits_false.
    + by rewrite Z.bits_0.
Qed.

(** For an alignment that is a power of two the step looks at one bit of
    the cursor; when the bit is set the new cursor is twice the
    alignment, whatever the cursor was. *)
Lemma align_cursor_pow2 (T : ctype) (p k : Z) :
  0 <= k -> alignof T = 2 ^ k ->
  align_cursor T p = if Z.testbit p k then wrap (2 * alignof T) else p.
Proof.
  intros Hk Ha. unfold align_cursor. rewrite Ha, land_pow2 by done.
  assert (0 < 2 ^ k) by (by apply Z.pow_pos_nonneg).
  destruct (Z.testbit p k).
  - destruct (Z.eqb_spec (2 ^ k) 0); [lia |]. f_equal. lia.
  - done.
Qed.

(** The address that the words of the specification describe: it is
    aligned, not below the cursor, and less than an alignment above it. *)
Lemma next_aligned_spec (T : ctype) (p : Z) :
  0 < alignof T ->
  next_aligned T p mod alignof T = 0
  /\ p <= next_aligned T p < p + alignof T.
Proof.
  intros Ha. unfold next_aligned. split; [apply Z_mod_mult |].
  pose proof (Z.div_mod (p + alignof T - 1) (alignof T) ltac:(lia)).
  pose proof (Z.mod_pos_bound (p + alignof T - 1) (alignof T) Ha). lia.
Qed.

(** ** Facts on the memory source *)

Lemma existsb_eqb_false (b : Z) (l : list Z) :
  existsb (Z.eqb b) l = false -> b ∉ l.
Proof.
  induction l as [| x l IH]; simpl; intros H Hin.
  - by apply elem_of_nil in Hin.
  - apply orb_false_iff in H as [Hx Hl].
    apply elem_of_cons in Hin as [-> | Hin]; [| by apply IH].
    by rewrite Z.eqb_refl in Hx.
Qed.

Lemma existsb_eqb_true (b : Z) (l : list Z) :
  existsb (Z.eqb b) l = true -> b ∈ l.
Proof.
  induction l as [| x l IH]; simpl; [discriminate |].
  intros H. apply orb_true_iff in H as [Hx | Hl].
  - apply Z.eqb_eq in Hx. subst. apply list_elem_of_here.
  - apply list_elem_of_further. by apply IH.
Qed.

Lemma fresh_list_head (h : gmap Z Z) (b : Z) (rest : list Z) :
  fresh_list h (b :: rest) = true ->
  b <> 0 /\ h !! b = None /\ (b ∉ rest) /\ fresh_list h rest = true.
Proof.
  simpl. rewrite !andb_true_iff, !negb_true_iff.
  intros [[[H0 Hl] Hn] Hr]. repeat split; [| | by apply existsb_eqb_false | done].
  - by apply Z.eqb_neq.
  - apply bool_decide_eq_false in Hl. by apply eq_None_not_Some.
Qed.

Lemma fresh_list_change (h h' : gmap Z Z) (bs : list Z) :
  fresh_list h bs = true ->
  (forall x, x ∈ bs -> h !! x = None -> h' !! x = None) ->
  fresh_list h' bs = true.
Proof.
  induction bs as [| b rest IH]; [done |].
  intros Hf Hx. pose proof Hf as (H0 & Hl & Hn & Hr)%fresh_list_head.
  simpl in *. rewrite !andb_true_iff, !negb_true_iff in *.
  destruct Hf as [[[? _] ?] _]. repeat split; try done.
  - apply bool_decide_eq_false. apply eq_None_not_Some.
    apply Hx; [apply list_elem_of_here | done].
  - apply IH; [done |]. intros x Hin. apply Hx. by apply list_elem_of_further.
Qed.

(** ** Facts on [Allocate] *)

(** The four ways through lines 81-86 when the tail is a live node. *)
Lemma next_block_cases (T : ctype) (st : state) (nxt : Z) :
  heap st !! pLast st = Some nxt ->
  (exceeds T st = false /\ next_block T st = Returns tt st)
  \/ (exceeds T st = true /\ nxt <> 0
      /\ next_block T st = Returns tt (set_tail nxt st))
  \/ (exceeds T st = true /\ nxt = 0 /\ source st = []
      /\ next_block T st = Throws OutOfMemory st)
  \/ (exceeds T st = true /\ nxt = 0 /\ exists b rest, source st = b :: rest
      /\ next_block T st
         = Returns tt (State (<[pLast st := b]> (<[b := 0]> (heap st)))
                             (pHead st) b b rest (S (acquired st)) (released st))).
Proof.
  intros Hl. unfold next_block, operator_new.
  destruct (exceeds T st); [| by left]. rewrite Hl.
  destruct (Z.eqb_spec nxt 0) as [-> | Hn]; [| right; left; done].
  destruct (source st) as [| b rest] eqn:Hs; simpl.
  - right; right; left. done.
  - right; right; right. repeat split; try done. by exists b, rest.
Qed.

(** When the tail is no live node, the call goes on if the object does
    not exceed, and reads through the tail if it does. *)
Lemma next_block_dead (T : ctype) (st : state) :
  heap st !! pLast st = None ->
  (exceeds T st = false /\ next_block T st = Returns tt st)
  \/ (exceeds T st = true /\ next_block T st = Undefined).
Proof.
  intros Hl. unfold next_block. rewrite Hl.
  destruct (exceeds T st); [by right | by left].
Qed.

(** All the ways through lines 81-86. *)
Lemma next_block_outcomes (T : ctype) (st : state) :
  next_block T st = Undefined
  \/ next_block T st = Returns tt st
  \/ (exists nxt, heap st !! pLast st = Some nxt /\ nxt <> 0
        /\ next_block T st = Returns tt (set_tail nxt st))
  \/ next_block T st = Throws OutOfMemory st
  \/ (exists b rest, heap st !! pLast st = Some 0 /\ source st = b :: rest
        /\ next_block T st
           = Returns tt (State (<[pLast st := b]> (<[b := 0]> (heap st)))
                               (pHead st) b b rest (S (acquired st)) (released st))).
Proof.
  destruct (heap st !! pLast st) as [nxt |] eqn:Hl.
  - destruct (next_block_cases T st nxt Hl)
      as [[_ E] | [(_ & Hn & E) | [(_ & _ & _ & E) | (_ & -> & b & rest & Hs & E)]]].
    + right; left; done.
    + right; right; left. by exists nxt.
    + right; right; right; left; done.
    + right; right; right; right. by exists b, rest.
  - destruct (next_block_dead T st Hl) as [[_ E] | [_ E]]; [right; left; done | by left].
Qed.

(** Lines 87-97 change nothing but the cursor. *)
Lemma finish_cases (T : ctype) (st : state) :
  (exists c, bind (realign T st) (fun _ s => place T s)
             = Throws AllocationImpossible (set_cursor c st))
  \/ (bind (realign T st) (fun _ s => place T s)
      = Returns (align_cursor T (pCurrent st))
                (set_cursor (wrap (align_cursor T (pCurrent st) + sizeof T)) st)).
Proof.
  unfold realign, place, align_cursor.
  destruct (Z.land (pCurrent st) (alignof T) =? 0) eqn:Hb; simpl.
  - right. done.
  - destruct (exceeds _ _); simpl; [left; eauto | right; done].
Qed.

(** The outcome of lines 87-97 depends on the state through [pLast] and
    [pCurrent] only. *)
Lemma finish_replay (T : ctype) (st st' : state) (r : Z) (s : state) :
  pLast st' = pLast st -> pCurrent st' = pCurrent st ->
  bind (realign T st) (fun _ s => place T s) = Returns r s ->
  s = set_cursor (pCurrent s) st
  /\ bind (realign T st') (fun _ s => place T s)
     = Returns r (set_cursor (pCurrent s) st').
Proof.
  intros HL HC. destruct st' as [h' hd' l' c' s' a' r'].
  simpl in HL, HC. subst l' c'.
  unfold realign, place, exceeds, set_cursor. simpl.
  destruct (Z.land (pCurrent st) (alignof T) =? 0) eqn:Hb; simpl.
  - intros [= <- <-]. done.
  - destruct (_ <? _); simpl; [discriminate |].
    intros [= <- <-]. done.
Qed.

Lemma finish_state (T : ctype) (st : state) (r : Z) (s : state) :
  bind (realign T st) (fun _ s => place T s) = Returns r s ->
  s = set_cursor (pCurrent s) st.
Proof. intros H. by apply (finish_replay T st st r s). Qed.

Lemma heap_extends_refl (h : gmap Z Z) : heap_extends h h.
Proof. intros p nxt H. eauto. Qed.

Lemma heap_extends_trans (h1 h2 h3 : gmap Z Z) :
  heap_extends h1 h2 -> heap_extends h2 h3 -> heap_extends h1 h3.
Proof.
  intros H12 H23 p nxt H. destruct (H12 p nxt H) as [[n2 Hn2] Hk].
  destruct (H23 p n2 Hn2) as [Hs Hk']. split; [done |].
  intros Hn. specialize (Hk Hn). rewrite Hk in Hn2. injection Hn2 as <-. auto.
Qed.

(** Linking a block of a fresh source behind a node whose link is null. *)
Lemma heap_extends_link (h : gmap Z Z) (q b : Z) :
  h !! q = Some 0 -> h !! b = None ->
  heap_extends h (<[q := b]> (<[b := 0]> h)).
Proof.
  intros Hq Hb p nxt Hp. destruct (decide (p = q)) as [-> | Hpq].
  - rewrite lookup_insert_eq. split; [eauto | congruence].
  - assert (p <> b) by congruence.
    rewrite !lookup_insert_ne by congruence. eauto.
Qed.

(** A call that returns keeps [pHead], only extends the heap, and leaves
    a source that is fresh for the new heap. *)
Lemma Allocate_frame (T : ctype) (st : state) (r : Z) (st1 : state) :
  source_fresh st = true -> Allocate T st = Returns r st1 ->
  heap_extends (heap st) (heap st1) /\ source_fresh st1 = true
  /\ pHead st1 = pHead st.
Proof.
  intros Hf. unfold Allocate.
  set (sa := set_cursor (align_cursor T (pCurrent st)) st).
  destruct (next_block_outcomes T sa)
    as [-> | [-> | [(nxt & _ & _ & ->) | [-> | (b & rest & Hl & Hs & ->)]]]];
    simpl; try discriminate.
  - intros ->%finish_state. simpl. auto using heap_extends_refl.
  - intros ->%finish_state. simpl. auto using heap_extends_refl.
  - intros ->%finish_state. simpl. simpl in Hl, Hs.
    unfold source_fresh in *. rewrite Hs in Hf.
    apply fresh_list_head in Hf as (Hb0 & Hb & Hn & Hr).
    split; [by apply heap_extends_link |]. split; [| done].
    unfold source_fresh. simpl. apply (fresh_list_change (heap st)); [done |].
    intros x Hx Hxl. rewrite !lookup_insert_ne; [done | | ]; congruence.
Qed.

Lemma run_frame (ops : list ctype) (st : state) (rs : list Z) (st1 : state) :
  source_fresh st = true -> run ops st = Returns rs st1 ->
  heap_extends (heap st) (heap st1) /\ pHead st1 = pHead st.
Proof.
  revert st rs st1. induction ops as [| T ops IH]; intros st rs st1 Hf; simpl.
  - intros [= <- <-]. auto using heap_extends_refl.
  - destruct (Allocate T st) as [r sm | |] eqn:HA; simpl; try discriminate.
    destruct (run ops sm) as [rs' s2 | |] eqn:HR; simpl; try discriminate.
    intros [= <- <-].
    destruct (Allocate_frame _ _ _ _ Hf HA) as (He & Hf' & Hh).
    destruct (IH _ _ _ Hf' HR) as [He' Hh'].
    split; [by eapply heap_extends_trans | congruence].
Qed.

(** A call that returned is repeated, block for block, by the same call
    on a state with the same tail and cursor whose heap extends the heap
    in which the first call ended: the memory source is not asked. *)
Lemma Allocate_replay (T : ctype) (st st' : state) (r : Z) (st1 : state) :
  source_fresh st = true -> Allocate T st = Returns r st1 ->
  heap_extends (heap st1) (heap st') ->
  pLast st' = pLast st -> pCurrent st' = pCurrent st ->
  Allocate T st'
  = Returns r (State (heap st') (pHead st') (pLast st1) (pCurrent st1)
                     (source st') (acquired st') (released st')).
Proof.
  intros Hf HA He HL HC. unfold Allocate in *. rewrite HC.
  set (c := align_cursor T (pCurrent st)) in *.
  set (sa := set_cursor c st) in *. set (sa' := set_cursor c st').
  assert (Hex : exceeds T sa' = exceeds T sa)
    by (unfold exceeds, sa, sa'; simpl; by rewrite HL).
  assert (Hkeep : exceeds T sa = false ->
                  bind (realign T sa) (fun _ s => place T s) = Returns r st1 ->
                  bind (next_block T sa')
                       (fun _ st2 => bind (realign T st2) (fun _ st3 => place T st3))
                  = Returns r (State (heap st') (pHead st') (pLast st1) (pCurrent st1)
                                     (source st') (acquired st') (released st'))).
  { intros Hx HA'. pose proof (finish_state _ _ _ _ HA') as Hs1.
    unfold next_block. rewrite Hex, Hx. cbn [bind].
    destruct (finish_replay T sa sa' r st1) as [_ ->]; try done.
    unfold sa', set_cursor. simpl. do 2 f_equal. rewrite Hs1. done. }
  destruct (heap sa !! pLast sa) as [nxt |] eqn:Hl.
  2:{ destruct (next_block_dead T sa Hl) as [[Hx E] | [_ E]];
        rewrite E in HA; simpl in HA; [by apply Hkeep | discriminate]. }
  destruct (next_block_cases T sa nxt Hl)
    as [[Hx E] | [(Hx & Hn & E) | [(_ & _ & _ & E) | (Hx & -> & b & rest & Hs & E)]]];
    rewrite E in HA; simpl in HA; try discriminate.
  - (* the tail block is kept *)
    by apply Hkeep.
  - (* the successor is used again *)
    pose proof (finish_state _ _ _ _ HA) as Hs1.
    assert (Hh : heap st1 = heap st) by (rewrite Hs1; done).
    destruct (He (pLast st) nxt) as [_ Hn']; [by rewrite Hh |].
    unfold next_block. replace (pLast sa') with (pLast st) by done.
    replace (heap sa') with (heap st') by done.
    rewrite (Hn' Hn), Hex, Hx.
    destruct (Z.eqb_spec nxt 0); [done |]. cbn [bind].
    destruct (finish_replay T (set_tail nxt sa) (set_tail nxt sa') r st1) as [_ ->];
      try done.
    unfold sa', set_cursor. simpl. do 2 f_equal. rewrite Hs1. done.
  - (* the first call linked a new block: the second finds it *)
    pose proof (finish_state _ _ _ _ HA) as Hs1. simpl in Hs1, Hl, Hs.
    unfold source_fresh in Hf. rewrite Hs in Hf.
    apply fresh_list_head in Hf as (Hb0 & Hb & _ & _).
    assert (Hh : heap st1 = <[pLast st := b]> (<[b := 0]> (heap st)))
      by (rewrite Hs1; done).
    destruct (He (pLast st) b) as [_ Hn']; [by rewrite Hh, lookup_insert_eq |].
    unfold next_block. replace (pLast sa') with (pLast st) by done.
    replace (heap sa') with (heap st') by done.
    rewrite (Hn' Hb0), Hex, Hx.
    destruct (Z.eqb_spec b 0); [done |]. cbn [bind].
    match type of HA with bind (realign T ?s) _ = _ =>
      destruct (finish_replay T s (set_tail b sa') r st1) as [_ ->]; try done
    end.
    unfold sa', set_cursor. simpl. do 2 f_equal. rewrite Hs1. done.
Qed.

Lemma run_replay (ops : list ctype) (st st' : state) (rs : list Z) (st1 : state) :
  source_fresh st = true -> run ops st = Returns rs st1 ->
  heap_extends (heap st1) (heap st') ->
  pLast st' = pLast st -> pCurrent st' = pCurrent st ->
  run ops st'
  = Returns rs (State (heap st') (pHead st') (pLast st1) (pCurrent st1)
                      (source st') (acquired st') (released st')).
Proof.
  revert st st' rs st1.
  induction ops as [| T ops IH]; intros st st' rs st1 Hf; simpl.
  - intros [= <- <-] _ <- <-. by destruct st'.
  - destruct (Allocate T st) as [r sm | |] eqn:HA; simpl; try discriminate.
    destruct (run ops sm) as [rs' s2 | |] eqn:HR; simpl; try discriminate.
    intros [= <- <-] He HL HC.
    destruct (Allocate_frame _ _ _ _ Hf HA) as (_ & Hf' & _).
    destruct (run_frame _ _ _ _ Hf' HR) as [He' _].
    rewrite (Allocate_replay T st st' r sm Hf HA); try done;
      [| by eapply heap_extends_trans].
    simpl. by rewrite (IH sm _ rs' s2 Hf' HR).
Qed.

Lemma finish_after (T : ctype) (st s : state) :
  state_after (bind (realign T st) (fun _ s => place T s)) = Some s ->
  s = set_cursor (pCurrent s) st.
Proof.
  unfold realign, place.
  destruct (Z.land (pCurrent st) (alignof T) =? 0); simpl.
  - intros [= <-]. done.
  - destruct (exceeds _ _); simpl; intros [= <-]; done.
Qed.

Lemma finish_value (T : ctype) (st : state) (r : Z) (s : state) :
  bind (realign T st) (fun _ s => place T s) = Returns r s ->
  r = align_cursor T (pCurrent st).
Proof.
  unfold realign, place, align_cursor.
  destruct (Z.land (pCurrent st) (alignof T) =? 0); simpl.
  - by intros [= <- _].
  - destruct (exceeds _ _); simpl; [discriminate |]. by intros [= <- _].
Qed.

Lemma tail_linked_elem (st : state) (l : list Z) :
  chain st = Some l -> tail_linked st = true -> pLast st ∈ l.
Proof.
  unfold tail_linked. intros ->. apply existsb_eqb_true.
Qed.

Lemma chain_set_cursor (c : Z) (st : state) : chain (set_cursor c st) = chain st.
Proof. done. Qed.

Lemma Allocate_locate (T : ctype) (st : state) :
  Allocate T st = bind (locate T st) (fun _ s => place T s).
Proof.
  unfold Allocate, locate.
  by destruct (next_block T (set_cursor (align_cursor T (pCurrent st)) st)).
Qed.

(** ** The properties of the operations *)

(** C7. [Clean] returns, and the state it returns in has the tail at the
    head and the cursor at the start of the storage of the head; the heap
    of live nodes with their links, the chain, the blocks released so far
    and the memory source are those of before the call. *)
Theorem Clean_frame (st : state) :
  exists st', Clean st = Returns tt st'
    /\ pLast st' = pHead st /\ pCurrent st' = pHead st /\ pHead st' = pHead st
    /\ heap st' = heap st /\ chain st' = chain st
    /\ released st' = released st /\ acquired st' = acquired st
    /\ source st' = source st.
Proof. eexists. split; [reflexivity |]. repeat split. Qed.

(** C10. On a container whose chain is well formed, [Reset] returns, and
    a second [Reset] right after it returns in the very same state: it
    releases nothing more and leaves the head, its link, the tail and the
    cursor as the first call left them.  The destructor run after an
    explicit [Reset] is defined, and releases the head only. *)
Theorem Reset_idempotent (st : state) (t : list Z) :
  chain st = Some (pHead st :: t) ->
  exists st1, Reset st = Returns tt st1
    /\ Reset st1 = Returns tt st1
    /\ heap st1 !! pHead st1 = Some 0
    /\ exists st2, Destroy st1 = Returns tt st2
         /\ released st2 = pHead st :: released st1
         /\ heap st2 = delete (pHead st) (heap st1).
Proof.
  intros Hc. rewrite (Reset_spec st t Hc).
  apply chain_lseg in Hc. inversion Hc as [| h p nxt l Hp Hl Hs]; subst.
  eexists. split; [reflexivity |].
  split; [apply Reset_again |].
  split; [simpl; by rewrite lookup_insert_eq |].
  unfold Destroy. rewrite Reset_again. simpl. unfold operator_delete. simpl.
  destruct (Z.eqb_spec (pHead st) 0); [done |].
  rewrite lookup_insert_eq. eexists. split; [reflexivity |]. done.
Qed.

(** C9. On a container whose tail is a node of its chain, with a memory
    source that answers fresh addresses, a call of [Allocate] ends by a
    return or a throw, and in the state it ends in either the chain is
    the same and nothing was acquired, or the chain has one node more at
    its end, one block was acquired, and the tail had no successor when
    the call began. *)
Theorem Allocate_chain_growth (T : ctype) (st : state) (l : list Z) :
  chain st = Some l -> tail_linked st = true -> source_fresh st = true ->
  exists st', state_after (Allocate T st) = Some st'
    /\ ((chain st' = Some l /\ acquired st' = acquired st
         /\ source st' = source st)
        \/ (exists b, chain st' = Some (l ++ [b])
              /\ acquired st' = S (acquired st)
              /\ source st = b :: source st'
              /\ heap st !! pLast st = Some 0)).
Proof.
  intros Hc Ht Hf. pose proof (tail_linked_elem _ _ Hc Ht) as Hin.
  apply chain_lseg in Hc.
  destruct (lseg_elem _ _ _ _ Hc Hin) as (_ & nxt & Hl & Hnxt).
  unfold Allocate.
  set (sa := set_cursor (align_cursor T (pCurrent st)) st).
  assert (Hca : chain sa = Some l) by (by apply chain_lseg).
  destruct (next_block_cases T sa nxt Hl)
    as [[_ ->] | [(_ & Hn & ->) | [(_ & _ & _ & ->) | (_ & -> & b & rest & Hs & ->)]]];
    cbn [bind].
  - destruct (finish_cases T sa) as [[c ->] | ->];
      (eexists; split; [reflexivity | left; done]).
  - destruct (finish_cases T (set_tail nxt sa)) as [[c ->] | ->];
      (eexists; split; [reflexivity | left; done]).
  - eexists; split; [reflexivity | left; done].
  - simpl in Hl, Hs. unfold source_fresh in Hf. rewrite Hs in Hf.
    apply fresh_list_head in Hf as (Hb0 & Hb & _ & _).
    pose proof (lseg_append _ _ _ _ b Hc Hin Hl Hb Hb0) as Happ.
    match goal with |- context [bind (realign T ?s) _] => set (sg := s) end.
    assert (Hcg : chain sg = Some (l ++ [b])) by (by apply chain_lseg).
    destruct (finish_cases T sg) as [[c ->] | ->].
    + eexists; split; [reflexivity | right]. exists b. by rewrite chain_set_cursor.
    + eexists; split; [reflexivity | right]. exists b. by rewrite chain_set_cursor.
Qed.

(** C8, as amended.  When the placement does not fit the tail block, the
    tail has no successor and the memory source cannot supply a block,
    [Allocate] throws with the heap, the tail and the source as they
    were; what the caller catches is [std::bad_alloc], which is also what
    the branch of line 93 throws. *)
Theorem Allocate_out_of_memory (T : ctype) (st : state) :
  heap st !! pLast st = Some 0 ->
  exceeds T (set_cursor (align_cursor T (pCurrent st)) st) = true ->
  source st = [] ->
  Allocate T st
  = Throws OutOfMemory (set_cursor (align_cursor T (pCurrent st)) st)
  /\ thrown (Allocate T st) = Some std_bad_alloc
  /\ thrown (Allocate T st) = Some (exception_of AllocationImpossible).
Proof.
  intros Hl Hx Hs.
  assert (E : Allocate T st
              = Throws OutOfMemory (set_cursor (align_cursor T (pCurrent st)) st)).
  { unfold Allocate.
    destruct (next_block_cases T (set_cursor (align_cursor T (pCurrent st)) st)
                               0 Hl)
      as [[Hx' _] | [(_ & ? & _) | [(_ & _ & _ & ->) | (_ & _ & b & rest & Hs' & _)]]];
      [congruence | done | done |].
    simpl in Hs'. congruence. }
  rewrite E. done.
Qed.

(** ** Further properties of the operations *)

(** X2.  [Reset] followed by [Clean] leaves a container at rest: the head
    alone in the chain, the tail at the head and the cursor at the start
    of its storage. *)
Theorem Reset_then_Clean_ready (st : state) (t : list Z) :
  chain st = Some (pHead st :: t) -> 0 <= nBlockSize ->
  exists st2, bind (Reset st) (fun _ s => Clean s) = Returns tt st2
    /\ chain st2 = Some [pHead st]
    /\ pHead st2 = pHead st /\ pLast st2 = pHead st /\ pCurrent st2 = pHead st
    /\ released st2 = rev t ++ released st
    /\ ready st2 = true.
Proof.
  intros Hc HN. rewrite (Reset_spec st t Hc). cbn [bind]. unfold Clean. simpl.
  apply chain_lseg in Hc. inversion Hc as [| h p nxt l Hp Hl Hs]; subst.
  eexists. split; [reflexivity |].
  assert (Hch : chain (State (<[pHead st := 0]> (delete_all t (delete (pHead st) (heap st))))
                             (pHead st) (pHead st) (pHead st) (source st)
                             (acquired st) (rev t ++ released st))
                = Some [pHead st]).
  { apply chain_lseg. simpl.
    apply lseg_node with (nxt := 0); [done | by rewrite lookup_insert_eq | constructor]. }
  split; [exact Hch |]. repeat split.
  unfold ready, tail_linked. rewrite Hch. simpl.
  rewrite Z.eqb_refl. simpl. apply andb_true_iff. split; apply Z.leb_le; lia.
Qed.

(** X4.  Whatever its outcome, [Allocate] keeps the head, releases no block,
    and counts as acquired exactly the blocks it took from the memory
    source. *)
Theorem Allocate_keeps_head (T : ctype) (st st' : state) :
  state_after (Allocate T st) = Some st' ->
  pHead st' = pHead st /\ released st' = released st
  /\ (acquired st' + length (source st') = acquired st + length (source st))%nat.
Proof.
  unfold Allocate.
  set (sa := set_cursor (align_cursor T (pCurrent st)) st).
  destruct (next_block_outcomes T sa)
    as [-> | [-> | [(nxt & _ & _ & ->) | [-> | (b & rest & _ & Hs & ->)]]]];
    cbn [bind].
  - discriminate.
  - intros ->%finish_after. done.
  - intros ->%finish_after. done.
  - simpl. intros [= <-]. done.
  - intros ->%finish_after. simpl. simpl in Hs. rewrite Hs. simpl.
    repeat split. lia.
Qed.

Lemma align_cursor_nonzero (T : ctype) (k x : Z) :
  0 <= k -> alignof T = 2 ^ k -> k + 1 < ptr_bits -> x <> 0 ->
  align_cursor T x <> 0.
Proof.
  intros Hk Ha Hw Hx. rewrite (align_cursor_pow2 T x k Hk Ha).
  destruct (Z.testbit x k); [| done].
  rewrite Ha. unfold wrap.
  replace (2 * 2 ^ k) with (2 ^ (k + 1)) by (rewrite Z.pow_add_r by lia; lia).
  assert (0 < 2 ^ (k + 1)) by (apply Z.pow_pos_nonneg; lia).
  assert (2 ^ (k + 1) < 2 ^ ptr_bits) by (apply Z.pow_lt_mono_r; lia).
  rewrite Z.mod_small; lia.
Qed.

(** X5.  The address returned is never null: for an alignment that is a power
    of two below the range of [uintptr_t], a cursor that is not null and
    a memory source that answers no null address. *)
Theorem Allocate_never_null (T : ctype) (k : Z) (st : state) (r : Z) (st' : state) :
  0 <= k -> alignof T = 2 ^ k -> k + 1 < ptr_bits ->
  pCurrent st <> 0 -> source_fresh st = true ->
  Allocate T st = Returns r st' -> r <> 0.
Proof.
  intros Hk Ha Hw Hc Hf. unfold Allocate.
  set (sa := set_cursor (align_cursor T (pCurrent st)) st).
  assert (Hsa : pCurrent sa <> 0) by (by apply (align_cursor_nonzero T k)).
  destruct (next_block_outcomes T sa)
    as [-> | [-> | [(nxt & _ & Hn & ->) | [-> | (b & rest & _ & Hs & ->)]]]];
    cbn [bind]; try discriminate.
  - intros ->%finish_value. by apply (align_cursor_nonzero T k).
  - intros ->%finish_value. by apply (align_cursor_nonzero T k).
  - intros ->%finish_value. simpl. apply (align_cursor_nonzero T k); try done.
    simpl in Hs. unfold source_fresh in Hf. rewrite Hs in Hf.
    by apply fresh_list_head in Hf as (Hb0 & _).
Qed.

Lemma wrap_small (x : Z) : 0 <= x < 2 ^ ptr_bits -> wrap x = x.
Proof. intros H. unfold wrap. by apply Z.mod_small. Qed.

Lemma land_pow2_multiple (c k : Z) :
  0 <= k -> c mod 2 ^ (k + 1) = 0 -> Z.land c (2 ^ k) = 0.
Proof.
  intros Hk Hc. rewrite land_pow2 by done.
  rewrite <- (Z.mod_pow2_bits_low c (k + 1) k) by lia.
  by rewrite Hc, Z.bits_0.
Qed.

(** X6.  When the bit of the alignment is set in the cursor, lines 76-94
    end with the cursor at twice the alignment, wherever the blocks are,
    as long as an object put there ends before the end of the tail
    block: this is the address that line 95 hands to the placement
    [new].  The tail, the heap and the memory source are not touched. *)
Theorem locate_corrected_address (T : ctype) (k : Z) (st : state) :
  0 <= k -> alignof T = 2 ^ k -> Z.testbit (pCurrent st) k = true ->
  0 <= sizeof T ->
  2 * alignof T + sizeof T <= pLast st + nBlockSize < 2 ^ ptr_bits ->
  locate T st = Returns tt (set_cursor (2 * alignof T) st).
Proof.
  intros Hk Ha Hb Hs Hfit.
  assert (Hpos : 0 < 2 ^ k) by (by apply Z.pow_pos_nonneg).
  assert (Hc1 : align_cursor T (pCurrent st) = 2 * alignof T).
  { rewrite (align_cursor_pow2 T _ k Hk Ha), Hb. apply wrap_small. lia. }
  assert (Hc2 : Z.land (2 * alignof T) (alignof T) = 0).
  { rewrite Ha. apply land_pow2_multiple; [done |].
    replace (2 * 2 ^ k) with (2 ^ (k + 1)) by (rewrite Z.pow_add_r by lia; lia).
    apply Z.mod_same. apply Z.pow_nonzero; lia. }
  unfold locate. rewrite Hc1.
  unfold next_block, exceeds, block_end. simpl.
  rewrite !wrap_small by lia.
  destruct (Z.ltb_spec (pLast st + nBlockSize) (2 * alignof T + sizeof T)); [lia |].
  cbn [bind]. unfold realign. simpl. by rewrite Hc2.
Qed.


(** X10.  When the placement does not fit the tail block and the tail
    has a successor, lines 76-94 go on from the successor as tail with
    the cursor at its start, and the heap, the memory source and the
    count of acquired blocks are those of before the call.  When a
    sequence of calls that begins on an empty container has returned and
    every object lies in the storage of a block, the same sequence after
    [Clean] returns the same addresses and acquires no block. *)
Theorem Clean_replay_in_blocks (T : ctype) (st : state) (nxt : Z)
    (ops : list ctype) (st0 : state) (rs : list Z) (st1 : state) :
  (heap st !! pLast st = Some nxt -> nxt <> 0 ->
   exceeds T (set_cursor (align_cursor T (pCurrent st)) st) = true ->
   locate T st = realign T (set_tail nxt st)
   /\ (forall st', state_after (locate T st) = Some st' ->
         pLast st' = nxt /\ heap st' = heap st
         /\ source st' = source st /\ acquired st' = acquired st))
  /\ (source_fresh st0 = true -> empty_arena st0 = true ->
      run ops st0 = Returns rs st1 -> run_in_blocks ops st0 = true ->
      exists st2, bind (Clean st1) (fun _ s => run ops s) = Returns rs st2
        /\ heap st2 = heap st1 /\ source st2 = source st1
        /\ acquired st2 = acquired st1).
Proof.
  split.
  - intros Hl Hn Hx.
    assert (E : locate T st = realign T (set_tail nxt st)).
    { unfold locate.
      destruct (next_block_cases T (set_cursor (align_cursor T (pCurrent st)) st)
                                 nxt Hl)
        as [[Hx' _] | [(_ & _ & ->) | [(_ & ? & _) | (_ & ? & _)]]];
        [congruence | done | done | done]. }
    split; [done |]. rewrite E. intros st'. unfold realign.
    destruct (Z.land (pCurrent (set_tail nxt st)) (alignof T) =? 0);
      [cbn [state_after]; intros H; injection H as <-; done |].
    cbv zeta.
    match goal with |- context [if ?b then _ else _] => destruct b end;
      cbn [state_after]; intros H; injection H as <-; done.
  - intros Hf He Hr _. unfold Clean. cbn [bind].
    unfold empty_arena in He. apply andb_true_iff in He as [HL HC].
    apply Z.eqb_eq in HL, HC.
    destruct (run_frame _ _ _ _ Hf Hr) as [_ Hh].
    rewrite (run_replay ops st0 _ rs st1 Hf Hr);
      [| apply heap_extends_refl | simpl; congruence | simpl; congruence].
    eexists. split; [reflexivity | done].
Qed.

(** ** The container and its heap over a sequence of calls *)

Lemma size_zero_lookup (h : gmap Z Z) (k : Z) : size h = 0%nat -> h !! k = None.
Proof. intros E. apply map_size_empty_inv in E. subst h. apply lookup_empty. Qed.

(** A chain as long as the heap is large holds every live node. *)
Lemma lseg_covers (h : gmap Z Z) (p : Z) (l : list Z) :
  lseg h p l -> length l = size h -> forall k, is_Some (h !! k) -> k ∈ l.
Proof.
  induction 1 as [h | h p nxt l Hp Hl _ IH]; intros Hlen k [v Hk].
  - simpl in Hlen. rewrite size_zero_lookup in Hk by done. discriminate.
  - destruct (decide (k = p)) as [-> | Hkp]; [apply list_elem_of_here |].
    apply list_elem_of_further. apply IH.
    + rewrite (size_live _ _ _ Hl) in Hlen. simpl in Hlen. lia.
    + exists v. by rewrite lookup_delete_ne.
Qed.

Lemma delete_all_empty (h : gmap Z Z) (p : Z) (l : list Z) :
  lseg h p l -> length l = size h -> delete_all l h = ∅.
Proof.
  induction 1 as [h | h p nxt l Hp Hl _ IH]; intros Hlen; simpl.
  - apply map_size_empty_inv. by simpl in Hlen.
  - apply IH. rewrite (size_live _ _ _ Hl) in Hlen. simpl in Hlen. lia.
Qed.

Lemma source_ready_head (st : state) (b : Z) (rest : list Z) :
  source_ready st = true -> source st = b :: rest ->
  b <> 0 /\ heap st !! b = None.
Proof.
  unfold source_ready. intros H Hs. rewrite Hs in H.
  apply andb_true_iff in H as [H0 Hl]. apply negb_true_iff in H0, Hl.
  split; [by apply Z.eqb_neq |].
  apply bool_decide_eq_false in Hl. by apply eq_None_not_Some.
Qed.

Lemma Construct_owned (src : list Z) (st0 : state) :
  Construct src = Returns tt st0 -> pHead st0 <> 0 ->
  owned st0 /\ pLast st0 = pHead st0 /\ pCurrent st0 = pHead st0.
Proof.
  destruct src as [| b rest]; [discriminate |].
  intros [= <-] Hb0. simpl in Hb0. split; [| done].
  exists [b]. simpl. repeat split; try done.
  - apply lseg_node with (nxt := 0); [done | by rewrite lookup_insert_eq | constructor].
  - by rewrite map_size_insert_None, map_size_empty by apply lookup_empty.
  - left. apply list_elem_of_here.
  - by rewrite map_size_insert_None, map_size_empty by apply lookup_empty.
Qed.

(** A call of [Allocate] that takes from the memory source, if it takes
    anything, a block that the source may answer keeps the ownership. *)
Lemma Allocate_owned (T : ctype) (st st' : state) :
  owned st -> state_after (Allocate T st) = Some st' ->
  ((acquired st' =? acquired st)%nat || source_ready st) = true ->
  owned st' /\ pHead st' = pHead st.
Proof.
  intros (l & Hseg & Hp0 & Hlen & Htail & Hacq).
  unfold Allocate.
  set (sa := set_cursor (align_cursor T (pCurrent st)) st).
  destruct (next_block_outcomes T sa)
    as [-> | [-> | [(nxt & Hl & Hn & ->) | [-> | (b & rest & Hl & Hs & ->)]]]];
    cbn [bind].
  - discriminate.
  - intros ->%finish_after _. split; [| done]. exists l. repeat split; auto.
  - intros ->%finish_after _. split; [| done]. exists l. repeat split; auto.
    left. simpl in Hl.
    assert (Hin : pLast st ∈ l).
    { apply (lseg_covers _ _ _ Hseg Hlen). eauto. }
    destruct (lseg_elem _ _ _ _ Hseg Hin) as (_ & n' & Hn' & Hnxt).
    assert (n' = nxt) by congruence. subst n'. by destruct Hnxt.
  - simpl. intros [= <-] _. split; [| done]. exists l. repeat split; auto.
  - intros ->%finish_after Hfresh. split; [| done]. simpl in Hs, Hl.
    change ((S (acquired st) =? acquired st)%nat || source_ready st = true)
      in Hfresh.
    assert (Hne : (S (acquired st) =? acquired st)%nat = false)
      by (apply Nat.eqb_neq; lia).
    rewrite Hne in Hfresh. cbn [orb] in Hfresh.
    destruct (source_ready_head st b rest Hfresh Hs) as [Hb0 Hb].
    assert (Hin : pLast st ∈ l).
    { apply (lseg_covers _ _ _ Hseg Hlen). eauto. }
    assert (Hsize : size (<[pLast st := b]> (<[b := 0]> (heap st)))
                    = S (size (heap st))).
    { rewrite map_size_insert_Some, map_size_insert_None; [done | done |].
      rewrite lookup_insert_ne by congruence. eauto. }
    exists (l ++ [b]). simpl. repeat split.
    + by apply lseg_append.
    + done.
    + rewrite length_app, Hsize. simpl. lia.
    + left. apply elem_of_app. right. apply list_elem_of_here.
    + rewrite Hsize. lia.
Qed.

Lemma Reset_owned (st st' : state) :
  owned st -> state_after (Reset st) = Some st' ->
  owned st' /\ pHead st' = pHead st.
Proof.
  intros (l & Hseg & Hp0 & Hlen & Htail & Hacq).
  destruct (lseg_node_inv _ _ _ Hp0 Hseg) as (nxt & t & -> & Hl & Hs).
  rewrite (Reset_spec st t) by (by apply chain_lseg).
  simpl. intros [= <-]. split; [| done].
  rewrite (delete_all_empty _ _ _ Hs).
  2:{ rewrite (size_live _ _ _ Hl) in Hlen. simpl in Hlen. lia. }
  exists [pHead st]. simpl. repeat split.
  - apply lseg_node with (nxt := 0); [done | by rewrite lookup_insert_eq | constructor].
  - done.
  - by rewrite map_size_insert_None, map_size_empty by apply lookup_empty.
  - by right.
  - rewrite map_size_insert_None, map_size_empty by apply lookup_empty.
    rewrite length_app, length_rev. simpl in Hlen. lia.
Qed.

Lemma do_call_owned (c : call) (st st' : state) :
  owned st -> sound_calls [c] st = true ->
  state_after (do_call c st) = Some st' ->
  owned st' /\ pHead st' = pHead st.
Proof.
  intros Ho Hsound. destruct c as [T | |]; simpl.
  - simpl in Hsound. apply andb_true_iff in Hsound as [Hsound _].
    unfold sound_call in Hsound.
    destruct (Allocate T st) as [r s | f s |] eqn:E; simpl; try discriminate;
      intros [= <-]; apply (Allocate_owned T st); try done;
      try (by rewrite E).
    by apply andb_true_iff in Hsound as [? _].
  - intros [= <-]. split; [| done].
    destruct Ho as (l & Hseg & Hp0 & Hlen & Htail & Hacq).
    exists l. simpl. repeat split; auto.
    destruct (lseg_node_inv _ _ _ Hp0 Hseg) as (nxt & t & -> & _).
    left. apply list_elem_of_here.
  - by apply Reset_owned.
Qed.

Lemma calls_owned (cs : list call) (st st' : state) :
  owned st -> sound_calls cs st = true -> calls cs st = Some st' ->
  owned st' /\ pHead st' = pHead st.
Proof.
  revert st. induction cs as [| c cs IH]; intros st Ho Hsound; simpl.
  - by intros [= <-].
  - destruct (state_after (do_call c st)) as [s |] eqn:E; [| discriminate].
    assert (Hc : sound_calls [c] st = true /\ sound_calls cs s = true).
    { simpl in Hsound |- *. rewrite E in Hsound |- *.
      apply andb_true_iff in Hsound as [H1 H2]. by rewrite H1, H2. }
    destruct Hc as [Hc1 Hc2].
    destruct (do_call_owned c st s Ho Hc1 E) as [Ho' Hh]. intros Hc.
    destruct (IH s Ho' Hc2 Hc) as [? ?]. split; [done | congruence].
Qed.

Lemma Destroy_owned (st : state) :
  owned st ->
  exists st2, Destroy st = Returns tt st2
    /\ heap st2 = ∅ /\ length (released st2) = acquired st2.
Proof.
  intros (l & Hseg & Hp0 & Hlen & Htail & Hacq).
  destruct (lseg_node_inv _ _ _ Hp0 Hseg) as (nxt & t & -> & Hl & Hs).
  unfold Destroy. rewrite (Reset_spec st t) by (by apply chain_lseg).
  cbn [bind]. unfold operator_delete. simpl.
  destruct (Z.eqb_spec (pHead st) 0); [done |].
  rewrite lookup_insert_eq. eexists. split; [reflexivity |]. simpl.
  rewrite (delete_all_empty _ _ _ Hs).
  2:{ rewrite (size_live _ _ _ Hl) in Hlen. simpl in Hlen. lia. }
  split.
  - rewrite delete_insert_eq. apply delete_empty.
  - rewrite length_app, length_rev. simpl in Hlen. lia.
Qed.

(** X8.  Over a sequence of calls on a constructed container that stays
    defined, in which the memory source answers an address that is not
    null and not that of a live block each time it is asked, and every
    object lies in the storage of a block: the head is the block of the
    constructor, the chain from it is well formed and holds every live
    node, the tail is a node of the chain or null, and the blocks
    acquired are the live ones and the released ones. *)
Theorem calls_keep_chain (src : list Z) (cs : list call) (st0 st1 : state) :
  Construct src = Returns tt st0 -> pHead st0 <> 0 ->
  sound_calls cs st0 = true -> calls cs st0 = Some st1 ->
  pHead st1 = pHead st0
  /\ (exists t, chain st1 = Some (pHead st0 :: t)
        /\ S (length t) = size (heap st1))
  /\ (tail_linked st1 = true \/ pLast st1 = 0)
  /\ acquired st1 = (size (heap st1) + length (released st1))%nat.
Proof.
  intros Hc Hp Hsound Hcs.
  destruct (Construct_owned src st0 Hc Hp) as [Ho _].
  destruct (calls_owned cs st0 st1 Ho Hsound Hcs)
    as [(l & Hseg & Hp0 & Hlen & Htail & Hacq) Hh].
  split; [done |].
  destruct (lseg_node_inv _ _ _ Hp0 Hseg) as (nxt & t & -> & _).
  assert (Hch : chain st1 = Some (pHead st1 :: t)) by (by apply chain_lseg).
  split; [exists t; by rewrite <- Hh |]. split; [| done].
  destruct Htail as [Hin | Hz]; [left | by right].
  unfold tail_linked. rewrite Hch.
  apply existsb_exists. exists (pLast st1). split; [| apply Z.eqb_refl].
  by apply list_elem_of_In.
Qed.

(** X9.  After a sequence of calls on a constructed container that stays
    defined, in which the memory source answers an address that is not
    null and not that of a live block each time it is asked, and every
    object lies in the storage of a block: the destructor returns, leaves
    no live node, and has released as many blocks as were acquired. *)
Theorem Destroy_releases_all (src : list Z) (cs : list call) (st0 st1 : state) :
  Construct src = Returns tt st0 -> pHead st0 <> 0 ->
  sound_calls cs st0 = true -> calls cs st0 = Some st1 ->
  exists st2, Destroy st1 = Returns tt st2
    /\ heap st2 = ∅ /\ length (released st2) = acquired st2.
Proof.
  intros Hc Hp Hsound Hcs.
  destruct (Construct_owned src st0 Hc Hp) as [Ho _].
  destruct (calls_owned cs st0 st1 Ho Hsound Hcs) as [Ho1 _].
  by apply Destroy_owned.
Qed.

End Container.

(** ** The properties at concrete containers *)

(** C1.  With the default block size, a container built on a block at
    address 4096 answers [Allocate<char>] then [Allocate<int>] with the
    addresses 4096 and 4097, and 4097 is not a multiple of
    [alignof(int)]; it answers three [Allocate<char>] with 4096, 2 and 2:
    the second object lies in no block of the chain, and the third has
    the bytes of the second. *)
Theorem Allocate_placement_defect :
  valid_config 4088 = true
  /\ object_type char_t = true /\ object_type int_t = true
  /\ valid_type 4088 char_t = true /\ valid_type 4088 int_t = true
  /\ (exists st,
        bind (Construct [4096]) (fun _ s => run 4088 64 [char_t; int_t] s)
        = Returns [4096; 4097] st
        /\ aligned int_t 4097 = false)
  /\ (exists st,
        bind (Construct [4096]) (fun _ s => run 4088 64 [char_t; char_t; char_t] s)
        = Returns [4096; 2; 2] st
        /\ chain st = Some [4096]
        /\ within_chain 4088 st char_t 2 = false
        /\ overlap char_t 2 char_t 2 = true).
Proof.
  repeat split; try reflexivity.
  - eexists. split; [vm_compute; reflexivity | reflexivity].
  - eexists. split; [vm_compute; reflexivity |]. repeat split; vm_compute; reflexivity.
Qed.

(** C2.  A container with blocks of 256 bytes that holds twenty objects
    of size 32 in three blocks: [Reset] returns, releases the second and
    the third block and leaves the head alone in the chain, but the tail
    it leaves is the null pointer, not the head, and the cursor it leaves
    is the one of before the call, inside the released third block; the
    next [Allocate] reads through the null tail. *)
Theorem Reset_leaves_tail_null :
  exists st st1,
    bind (Construct [4096; 8192; 12288])
         (fun _ s => bind (run 256 64 (repeat (CType 32 8) 20) s)
                          (fun _ s1 => Returns tt s1))
    = Returns tt st
    /\ chain st = Some [4096; 8192; 12288]
    /\ Reset st = Returns tt st1
    /\ chain st1 = Some [4096] /\ released st1 = [12288; 8192]
    /\ pHead st1 = 4096 /\ pLast st1 = 0 /\ pCurrent st1 = 12416
    /\ Allocate 256 64 char_t st1 = Undefined.
Proof.
  eexists. eexists. split; [vm_compute; reflexivity |].
  split; [vm_compute; reflexivity |].
  split; [vm_compute; reflexivity |].
  repeat split; vm_compute; reflexivity.
Qed.

(** C3.  The constructor establishes the invariant [ready].  [Reset]
    breaks it: the tail it leaves is null.  Two [Allocate<char>] break
    it: the cursor they leave is 3, outside the tail block. *)
Theorem ready_not_preserved :
  exists st, Construct [4096] = Returns tt st
    /\ ready 4088 st = true
    /\ (exists st1, Reset st = Returns tt st1
          /\ pLast st1 = 0 /\ ready 4088 st1 = false)
    /\ (exists st2, run 4088 64 [char_t; char_t] st = Returns [4096; 2] st2
          /\ pLast st2 = 4096 /\ pCurrent st2 = 3 /\ ready 4088 st2 = false).
Proof.
  eexists. split; [reflexivity |]. split; [vm_compute; reflexivity |]. split.
  - eexists. split; [vm_compute; reflexivity |]. split; vm_compute; reflexivity.
  - eexists. split; [vm_compute; reflexivity |]. repeat split; vm_compute; reflexivity.
Qed.

(** C4.  Blocks of 131072 bytes, the head at address 131072, a type of
    size and alignment 65536: two consecutive [Allocate] return the same
    address 131072, in the head block both times. *)
Theorem same_block_not_increasing :
  valid_config 131072 = true
  /\ object_type (CType 65536 65536) = true
  /\ valid_type 131072 (CType 65536 65536) = true
  /\ exists st,
       bind (Construct [131072])
            (fun _ s => run 131072 64 [CType 65536 65536; CType 65536 65536] s)
       = Returns [131072; 131072] st
       /\ chain st = Some [131072]
       /\ in_block 131072 131072 (CType 65536 65536) 131072 = true
       /\ (131072 <? 131072) = false.
Proof.
  repeat split; try reflexivity.
  eexists. split; [vm_compute; reflexivity |]. repeat split; vm_compute; reflexivity.
Qed.

(** C5.  Blocks of 256 bytes, at 4112 and 8208, a type of size 256 and
    alignment 64: after one [char], [Allocate] moves to the fresh second
    block and returns its start 8208, which is not aligned, although the
    placement at the next aligned address, 8256, exceeds the block; no
    error is signalled.  Blocks of 131071 bytes with the second one at
    address 65536, a type of size and alignment 65536: size and largest
    padding fit in a block, and the error of line 93 is thrown. *)
Theorem impossible_error_defect :
  (valid_config 256 = true
   /\ object_type (CType 256 64) = true /\ valid_type 256 (CType 256 64) = true
   /\ exists st,
        bind (Construct [4112; 8208])
             (fun _ s => run 256 64 [char_t; CType 256 64] s)
        = Returns [4112; 8208] st
        /\ acquired st = 2%nat /\ pLast st = 8208
        /\ aligned (CType 256 64) 8208 = false
        /\ next_aligned (CType 256 64) 8208 = 8256
        /\ in_block 256 8208 (CType 256 64) 8256 = false)
  /\ (valid_config 131071 = true
      /\ object_type (CType 98304 1) = true
      /\ object_type (CType 65536 65536) = true
      /\ valid_type 131071 (CType 98304 1) = true
      /\ valid_type 131071 (CType 65536 65536) = true
      /\ (65536 + (65536 - 1) <=? 131071) = true
      /\ failure_of (bind (Construct [294912; 65536])
                          (fun _ s => run 131071 64
                                          [CType 98304 1; CType 65536 65536] s))
         = Some AllocationImpossible).
Proof.
  split.
  - repeat split; try reflexivity.
    eexists. split; [vm_compute; reflexivity |]. repeat split; vm_compute; reflexivity.
  - repeat split; vm_compute; reflexivity.
Qed.

(** C6.  Blocks of 65536 bytes at 65552, 262144 and 393216, a type of
    size and alignment 65536.  Two [Allocate] return 262144 and 131072
    and leave a chain of two blocks; the second object lies in no block
    and its bytes include the link of the head.  With that link null, as
    a value-initialised object leaves it, the first [Allocate] after
    [Clean] finds no successor and takes a third block from the memory
    source. *)
Theorem Clean_replay_defect :
  valid_config 65536 = true
  /\ object_type (CType 65536 65536) = true
  /\ valid_type 65536 (CType 65536 65536) = true
  /\ exists st,
       bind (Construct [65552; 262144; 393216])
            (fun _ s => run 65536 64 [CType 65536 65536; CType 65536 65536] s)
       = Returns [262144; 131072] st
       /\ chain st = Some [65552; 262144]
       /\ acquired st = 2%nat
       /\ within_chain 65536 st (CType 65536 65536) 131072 = false
       /\ covers_link 65536 64 (CType 65536 65536) 131072 65552 = true
       /\ exists st',
            bind (Clean (store_next 65552 0 st))
                 (fun _ s => Allocate 65536 64 (CType 65536 65536) s)
            = Returns 393216 st'
            /\ acquired st' = 3%nat /\ source st' = [].
Proof.
  split; [reflexivity |]. split; [reflexivity |]. split; [reflexivity |].
  eexists. split; [vm_compute; reflexivity |].
  split; [vm_compute; reflexivity |]. split; [vm_compute; reflexivity |].
  split; [vm_compute; reflexivity |]. split; [vm_compute; reflexivity |].
  eexists. split; [vm_compute; reflexivity |].
  split; vm_compute; reflexivity.
Qed.

(** C8, the claim refuted.  A call that fails because the memory source
    is exhausted and a call that fails by line 93 give their callers the
    same exception. *)
Lemma out_of_memory_not_distinct :
  failure_of (bind (Construct [4096])
                   (fun _ s => run 256 64 [CType 256 8; CType 256 8] s))
  = Some OutOfMemory
  /\ failure_of (bind (Construct [294912; 65536])
                      (fun _ s => run 131071 64
                                      [CType 98304 1; CType 65536 65536] s))
     = Some AllocationImpossible
  /\ thrown (bind (Construct [4096])
                  (fun _ s => run 256 64 [CType 256 8; CType 256 8] s))
     = thrown (bind (Construct [294912; 65536])
                    (fun _ s => run 131071 64
                                    [CType 98304 1; CType 65536 65536] s)).
Proof. repeat split; vm_compute; reflexivity. Qed.

(** ** Instances of the general properties *)

(** [Reset_idempotent] on a chain of three blocks. *)
Lemma Reset_idempotent_witness :
  let st := State (<[4096 := 8192]> (<[8192 := 12288]> (<[12288 := 0]> ∅)))
                  4096 12288 12416 [] 3 [] in
  chain st = Some (pHead st :: [8192; 12288])
  /\ exists st1, Reset st = Returns tt st1
       /\ Reset st1 = Returns tt st1
       /\ heap st1 !! pHead st1 = Some 0
       /\ exists st2, Destroy st1 = Returns tt st2
            /\ released st2 = pHead st :: released st1
            /\ heap st2 = delete (pHead st) (heap st1).
Proof.
  intros st. split; [vm_compute; reflexivity |].
  apply (Reset_idempotent st [8192; 12288]). vm_compute; reflexivity.
Defined.

(** [Allocate_chain_growth] on a full head block without successor. *)
Lemma Allocate_chain_growth_witness :
  let st := State (<[4096 := 0]> ∅) 4096 4096 4352 [8192] 1 [] in
  (chain st = Some [4096] /\ tail_linked st = true /\ source_fresh st = true)
  /\ exists st', state_after (Allocate 256 64 (CType 32 8) st) = Some st'
       /\ ((chain st' = Some [4096] /\ acquired st' = acquired st
            /\ source st' = source st)
           \/ (exists b, chain st' = Some ([4096] ++ [b])
                 /\ acquired st' = S (acquired st)
                 /\ source st = b :: source st'
                 /\ heap st !! pLast st = Some 0)).
Proof.
  intros st. split; [repeat split; vm_compute; reflexivity |].
  apply (Allocate_chain_growth 256 64 (CType 32 8) st [4096]);
    vm_compute; reflexivity.
Defined.

(** [Allocate_out_of_memory] on a full head block, the source empty. *)
Lemma Allocate_out_of_memory_witness :
  let T := CType 256 8 in
  let st := State (<[4096 := 0]> ∅) 4096 4096 4352 [] 1 [] in
  (heap st !! pLast st = Some 0
   /\ exceeds 256 64 T (set_cursor (align_cursor 64 T (pCurrent st)) st) = true
   /\ source st = [])
  /\ Allocate 256 64 T st
     = Throws OutOfMemory (set_cursor (align_cursor 64 T (pCurrent st)) st)
  /\ thrown (Allocate 256 64 T st) = Some std_bad_alloc
  /\ thrown (Allocate 256 64 T st) = Some (exception_of AllocationImpossible).
Proof.
  intros T st. split; [repeat split; vm_compute; reflexivity |].
  apply (Allocate_out_of_memory 256 64 T st); vm_compute; reflexivity.
Defined.

(** [Reset_effect] on a chain of three blocks. *)
Lemma Reset_effect_witness :
  let st := State (<[4096 := 8192]> (<[8192 := 12288]> (<[12288 := 0]> ∅)))
                  4096 12288 12416 [] 3 [] in
  chain st = Some (pHead st :: [8192; 12288])
  /\ exists st1, Reset st = Returns tt st1
       /\ chain st1 = Some [pHead st]
       /\ released st1 = rev [8192; 12288] ++ released st
       /\ pHead st1 = pHead st /\ pLast st1 = 0 /\ pCurrent st1 = pCurrent st.
Proof.
  intros st. split; [vm_compute; reflexivity |].
  apply (Reset_effect st [8192; 12288]). vm_compute; reflexivity.
Defined.

(** [Reset_then_Clean_ready] on a chain of three blocks of 256 bytes. *)
Lemma Reset_then_Clean_ready_witness :
  let st := State (<[4096 := 8192]> (<[8192 := 12288]> (<[12288 := 0]> ∅)))
                  4096 12288 12416 [] 3 [] in
  (chain st = Some (pHead st :: [8192; 12288]) /\ 0 <= 256)
  /\ exists st2, bind (Reset st) (fun _ s => Clean s) = Returns tt st2
       /\ chain st2 = Some [pHead st]
       /\ pHead st2 = pHead st /\ pLast st2 = pHead st /\ pCurrent st2 = pHead st
       /\ released st2 = rev [8192; 12288] ++ released st
       /\ ready 256 st2 = true.
Proof.
  intros st. split; [split; [vm_compute; reflexivity | lia] |].
  apply (Reset_then_Clean_ready 256 st [8192; 12288]);
    [vm_compute; reflexivity | lia].
Defined.

(** [Allocate_keeps_head] on a call that links a second block. *)
Lemma Allocate_keeps_head_witness :
  let st := State (<[4096 := 0]> ∅) 4096 4096 4352 [8192] 1 [] in
  exists st', state_after (Allocate 256 64 (CType 32 8) st) = Some st'
    /\ pHead st' = pHead st /\ released st' = released st
    /\ (acquired st' + length (source st') = acquired st + length (source st))%nat.
Proof.
  intros st. eexists. split; [vm_compute; reflexivity |].
  apply (Allocate_keeps_head 256 64 (CType 32 8) st). vm_compute; reflexivity.
Defined.

(** [Allocate_never_null] on an [int] asked at the cursor 4100. *)
Lemma Allocate_never_null_witness :
  let st := State (<[4096 := 0]> ∅) 4096 4096 4100 [] 1 [] in
  exists st',
    (0 <= 2 /\ alignof int_t = 2 ^ 2 /\ 2 + 1 < 64 /\ pCurrent st <> 0
     /\ source_fresh st = true
     /\ Allocate 4088 64 int_t st = Returns 8 st')
    /\ 8 <> 0.
Proof.
  intros st. eexists. split.
  - split; [lia |]. split; [reflexivity |]. split; [lia |].
    split; [vm_compute; discriminate |]. split; vm_compute; reflexivity.
  - refine (Allocate_never_null 4088 64 int_t 2 st 8 _ _ _ _ _ _ _);
      [lia | reflexivity | lia | vm_compute; discriminate
       | vm_compute; reflexivity | vm_compute; reflexivity].
Defined.

(** [locate_corrected_address] on an [int] asked at the cursor 4100. *)
Lemma locate_corrected_address_witness :
  let st := State (<[4096 := 0]> ∅) 4096 4096 4100 [] 1 [] in
  (0 <= 2 /\ alignof int_t = 2 ^ 2 /\ Z.testbit (pCurrent st) 2 = true
   /\ 0 <= sizeof int_t
   /\ 2 * alignof int_t + sizeof int_t <= pLast st + 4088 < 2 ^ 64)
  /\ locate 4088 64 int_t st = Returns tt (set_cursor (2 * alignof int_t) st).
Proof.
  intros st. split.
  - split; [lia |]. split; [reflexivity |]. split; [reflexivity |].
    split; [vm_compute; discriminate |].
    split; [vm_compute; discriminate | vm_compute; reflexivity].
  - apply (locate_corrected_address 4088 64 int_t 2 st);
      [lia | reflexivity | reflexivity | vm_compute; discriminate |].
    split; [vm_compute; discriminate | vm_compute; reflexivity].
Defined.


(** [calls_keep_chain] on a container that is reset and filled again,
    with a memory source that answers the released address a second
    time. *)
Lemma calls_keep_chain_witness :
  let src := [4096; 8192; 8192] in
  let cs := [CallAllocate (CType 256 8); CallAllocate (CType 32 8); CallReset;
             CallClean; CallAllocate (CType 256 8); CallAllocate (CType 32 8)] in
  let st0 := State (<[4096 := 0]> ∅) 4096 4096 4096 [8192; 8192] 1 [] in
  let st1 := State (<[4096 := 8192]> (<[8192 := 0]> ∅))
                   4096 8192 8224 [] 3 [8192] in
  (Construct src = Returns tt st0 /\ pHead st0 <> 0
   /\ sound_calls 256 64 cs st0 = true /\ calls 256 64 cs st0 = Some st1)
  /\ pHead st1 = pHead st0
  /\ (exists t, chain st1 = Some (pHead st0 :: t)
        /\ S (length t) = size (heap st1))
  /\ (tail_linked st1 = true \/ pLast st1 = 0)
  /\ acquired st1 = (size (heap st1) + length (released st1))%nat.
Proof.
  intros src cs st0 st1. split.
  - split; [vm_compute; reflexivity |]. split; [vm_compute; discriminate |].
    split; [vm_compute; reflexivity | vm_compute; reflexivity].
  - apply (calls_keep_chain 256 64 src cs st0 st1);
      [vm_compute; reflexivity | vm_compute; discriminate
       | vm_compute; reflexivity | vm_compute; reflexivity].
Defined.

(** [Destroy_releases_all] on the same calls. *)
Lemma Destroy_releases_all_witness :
  let src := [4096; 8192; 8192] in
  let cs := [CallAllocate (CType 256 8); CallAllocate (CType 32 8); CallReset;
             CallClean; CallAllocate (CType 256 8); CallAllocate (CType 32 8)] in
  let st0 := State (<[4096 := 0]> ∅) 4096 4096 4096 [8192; 8192] 1 [] in
  let st1 := State (<[4096 := 8192]> (<[8192 := 0]> ∅))
                   4096 8192 8224 [] 3 [8192] in
  (Construct src = Returns tt st0 /\ pHead st0 <> 0
   /\ sound_calls 256 64 cs st0 = true /\ calls 256 64 cs st0 = Some st1)
  /\ exists st2, Destroy st1 = Returns tt st2
       /\ heap st2 = ∅ /\ length (released st2) = acquired st2.
Proof.
  intros src cs st0 st1. split.
  - split; [vm_compute; reflexivity |]. split; [vm_compute; discriminate |].
    split; [vm_compute; reflexivity | vm_compute; reflexivity].
  - apply (Destroy_releases_all 256 64 src cs st0 st1);
      [vm_compute; reflexivity | vm_compute; discriminate
       | vm_compute; reflexivity | vm_compute; reflexivity].
Defined.

(** [Clean_replay_in_blocks]: a full head block with a successor, and the
    ten objects of size 32 that take two blocks of 256 bytes. *)
Lemma Clean_replay_in_blocks_witness :
  let T := CType 32 8 in
  let st := State (<[4096 := 8192]> (<[8192 := 0]> ∅)) 4096 4096 4352 [] 2 [] in
  let st0 := State (<[4096 := 0]> ∅) 4096 4096 4096 [8192] 1 [] in
  let st1 := State (<[4096 := 8192]> (<[8192 := 0]> ∅)) 4096 8192 8256 [] 2 [] in
  let ops := repeat T 10 in
  let rs := [4096; 4128; 4160; 4192; 4224; 4256; 4288; 4320; 8192; 8224] in
  ((heap st !! pLast st = Some 8192 /\ 8192 <> 0
    /\ exceeds 256 64 T (set_cursor (align_cursor 64 T (pCurrent st)) st) = true)
   /\ locate 256 64 T st = realign 256 64 T (set_tail 8192 st)
   /\ (forall st', state_after (locate 256 64 T st) = Some st' ->
         pLast st' = 8192 /\ heap st' = heap st
         /\ source st' = source st /\ acquired st' = acquired st))
  /\ (source_fresh st0 = true /\ empty_arena st0 = true
      /\ run 256 64 ops st0 = Returns rs st1
      /\ run_in_blocks 256 64 ops st0 = true)
  /\ exists st2, bind (Clean st1) (fun _ s => run 256 64 ops s) = Returns rs st2
       /\ heap st2 = heap st1 /\ source st2 = source st1
       /\ acquired st2 = acquired st1.
Proof.
  intros T st st0 st1 ops rs. split; [split |].
  - split; [vm_compute; reflexivity |].
    split; [lia | vm_compute; reflexivity].
  - apply (proj1 (Clean_replay_in_blocks 256 64 T st 8192 ops st0 rs st1));
      [vm_compute; reflexivity | lia | vm_compute; reflexivity].
  - split.
    + split; [vm_compute; reflexivity |]. split; [vm_compute; reflexivity |].
      split; [vm_compute; reflexivity | vm_compute; reflexivity].
    + apply (proj2 (Clean_replay_in_blocks 256 64 T st 8192 ops st0 rs st1));
        [vm_compute; reflexivity | vm_compute; reflexivity
         | vm_compute; reflexivity | vm_compute; reflexivity].
Defined.
